(** * Message-buffer debounce service (src/main.py): a shallow embedding

    The FastAPI handlers of [src/main.py] are written as programs of a
    small free monad [prog] whose commands are the effects the Python code
    performs: the Redis commands LPUSH, LRANGE and DEL, the clock read
    [datetime.now(tz.UTC)], [asyncio.sleep] and [print].  Python exceptions
    are the [Raise] leaf of the monad and [try/except] is [catch].

    Two semantics are given to these programs:
    - [run]: one request against an arbitrary environment, which answers
      every store command and every clock read (other clients, faults);
    - [machine_step]: several requests interleaved command by command over
      one shared Redis store. *)

From Stdlib Require Import String Ascii List ZArith Lia Bool.
From Stdlib Require Import Sorted Permutation.
Import ListNotations.
Local Open Scope string_scope.
Local Open Scope Z_scope.

(* ------------------------------------------------------------------ *)
(** ** Data model (pydantic models of src/main.py) *)

(** The inbound webhook models (lines 26-63).  Their field names clash
    with those of [Message] ([event]), hence the module. *)
Module Webhook.

Record DeviceListMetadata := {
  senderKeyHash : string;
  senderTimestamp : string;
  recipientKeyHash : string;
  recipientTimestamp : string }.

Record MessageContextInfo := {
  deviceListMetadata : DeviceListMetadata;
  deviceListMetadataVersion : Z;
  messageSecret : string }.

Record WhatsAppMessage := {
  conversation : option string;
  messageContextInfo : option MessageContextInfo }.

Record MessageKey := {
  remoteJid : string;
  fromMe : bool;
  id : string }.

Record WebhookData := {
  key : MessageKey;
  pushName : string;
  message : WhatsAppMessage;
  messageType : string;
  messageTimestamp : Z;
  instanceId : string;
  source : string }.

Record WebhookPayload := {
  event : string;
  instance : string;
  data : WebhookData;
  destination : string;
  date_time : string;
  sender : string;
  server_url : string;
  apikey : string }.

End Webhook.

Record ImageContent := {
  image_id : string;
  content_url : string }.

(** [content: str | ImageContent] *)
Inductive Content :=
| CText (s : string)
| CImage (ic : ImageContent).

Record Message := {
  message_id : string;
  chat_id : string;
  content_type : string;
  content : Content;
  timestamp : string;
  event : string;
  user_name : string }.

(** [map_webhook_to_message] (lines 78-90); [conversation or ""] gives
    the empty string for [None] (and for [""]). *)
Definition map_webhook_to_message (webhook : Webhook.WebhookPayload) : Message :=
  let d := Webhook.data webhook in
  {| message_id := Webhook.id (Webhook.key d);
     chat_id := Webhook.remoteJid (Webhook.key d);
     content_type := Webhook.messageType d;
     content := CText (match Webhook.conversation (Webhook.message d) with
                       | Some s => s
                       | None => EmptyString
                       end);
     timestamp := Webhook.date_time webhook;
     event := Webhook.event webhook;
     user_name := Webhook.pushName d |}.

(** A value of a Redis list.  [VMsg m] is the string
    [json.dumps(m.dict())] that [send_message] pushes; [VJunk raw] is any
    string on which [the Message constructor on json.loads(raw)] raises. *)
Inductive value :=
| VMsg (m : Message)
| VJunk (raw : string).

Definition decode (v : value) : option Message :=
  match v with VMsg m => Some m | VJunk _ => None end.

(** The comprehension [Message(...json.loads(msg)) for msg in buffer_messages]: raises as
    soon as one entry does not decode. *)
Fixpoint decode_all (l : list value) : option (list Message) :=
  match l with
  | [] => Some []
  | v :: l' =>
      match decode v, decode_all l' with
      | Some m, Some ms => Some (m :: ms)
      | _, _ => None
      end
  end.

(** Redis LRANGE on a list, with its index conventions (negative indices
    count from the end, out-of-range indices are clamped). *)
Definition lrange_list {A} (l : list A) (start stop : Z) : list A :=
  let llen := Z.of_nat (length l) in
  let start1 := if start <? 0 then llen + start else start in
  let stop1 := if stop <? 0 then llen + stop else stop in
  let start2 := if start1 <? 0 then 0 else start1 in
  if (stop1 <? start2) || (llen <=? start2) then []
  else
    let stop2 := if llen <=? stop1 then llen - 1 else stop1 in
    firstn (Z.to_nat (stop2 - start2 + 1)) (skipn (Z.to_nat start2) l).

(** The server parses both LRANGE indices as signed 64-bit integers and
    answers "ERR value is not an integer or out of range" for any other
    value, which redis-py raises as a ResponseError. *)
Definition int64_min : Z := - 2 ^ 63.
Definition int64_max : Z := 2 ^ 63 - 1.

Definition in_int64 (z : Z) : bool := (int64_min <=? z) && (z <=? int64_max).

Definition redis_lrange {A} (l : list A) (start stop : Z) : option (list A) :=
  if in_int64 start && in_int64 stop then Some (lrange_list l start stop)
  else None.

(* ------------------------------------------------------------------ *)
(** ** Effects *)

(** The [print] calls of the source, one constructor per call site. *)
Inductive log_line :=
| LogStatus (flow_status : string)           (* "Status do fluxo: ..." *)
| LogStatusAfterWait (flow_status : string)  (* "Status do fluxo apos espera: ..." *)
| LogFlowError (e : string)                  (* "Erro ao verificar fluxo: ..." *)
| LogBufferError (e : string)                (* "Erro ao processar buffer: ..." *)
| LogSaving.                                 (* "Mensagem a ser salva no banco:" *)

(** [db_entry] of [process_buffer_messages]; its [additional_kwargs] and
    [response_metadata] are always the empty dict and are left out. *)
Record db_entry := {
  entry_type : string;
  entry_content : string }.

Inductive prog (A : Type) : Type :=
| Ret (a : A)
| Raise (e : string)
| LPush (k : string) (v : value) (c : bool -> prog A)
| LRange (k : string) (start stop : Z) (c : option (list value) -> prog A)
| Del (k : string) (c : bool -> prog A)
| Now (c : Z -> prog A)
| Sleep (secs : Z) (c : prog A)
| Print (l : log_line) (c : prog A)
| PrintEntry (e : db_entry) (c : prog A).

Arguments Ret {A} a.
Arguments Raise {A} e.
Arguments LPush {A} k v c.
Arguments LRange {A} k start stop c.
Arguments Del {A} k c.
Arguments Now {A} c.
Arguments Sleep {A} secs c.
Arguments Print {A} l c.
Arguments PrintEntry {A} e c.

Fixpoint bind {A B} (p : prog A) (f : A -> prog B) : prog B :=
  match p with
  | Ret a => f a
  | Raise e => Raise e
  | LPush k v c => LPush k v (fun ok => bind (c ok) f)
  | LRange k a b c => LRange k a b (fun r => bind (c r) f)
  | Del k c => Del k (fun ok => bind (c ok) f)
  | Now c => Now (fun t => bind (c t) f)
  | Sleep s c => Sleep s (bind c f)
  | Print l c => Print l (bind c f)
  | PrintEntry e c => PrintEntry e (bind c f)
  end.

(** [try: p except Exception as e: h(e)] *)
Fixpoint catch {A} (p : prog A) (h : string -> prog A) : prog A :=
  match p with
  | Ret a => Ret a
  | Raise e => h e
  | LPush k v c => LPush k v (fun ok => catch (c ok) h)
  | LRange k a b c => LRange k a b (fun r => catch (c r) h)
  | Del k c => Del k (fun ok => catch (c ok) h)
  | Now c => Now (fun t => catch (c t) h)
  | Sleep s c => Sleep s (catch c h)
  | Print l c => Print l (catch c h)
  | PrintEntry e c => PrintEntry e (catch c h)
  end.

Notation "x <- p ;; q" := (bind p (fun x => q))
  (at level 61, p at next level, right associativity).

Definition redis_error : string := "redis.exceptions.RedisError".

(** The Redis client calls: a command that fails raises. *)
Definition lpush (k : string) (v : value) : prog unit :=
  LPush k v (fun ok => if ok then Ret tt else Raise redis_error).
Definition lrange (k : string) (start stop : Z) : prog (list value) :=
  LRange k start stop (fun r => match r with
                                | Some l => Ret l
                                | None => Raise redis_error
                                end).
Definition delete (k : string) : prog unit :=
  Del k (fun ok => if ok then Ret tt else Raise redis_error).
Definition now_utc : prog Z := Now Ret.

Definition raise_none {A} (o : option A) (e : string) : prog A :=
  match o with Some a => Ret a | None => Raise e end.

(** [xs[0]] and [xs[-1]] *)
Definition py_first {A} (l : list A) : prog A :=
  match l with x :: _ => Ret x | [] => Raise "IndexError" end.
Definition py_last {A} (l : list A) : prog A :=
  match rev l with x :: _ => Ret x | [] => Raise "IndexError" end.

(* ------------------------------------------------------------------ *)
(** ** Running one request against an environment *)

Inductive trace_event :=
| EvLPush (k : string) (v : value) (ok : bool)
| EvLRange (k : string) (start stop : Z) (r : option (list value))
| EvDel (k : string) (ok : bool)
| EvNow (t : Z)
| EvSleep (secs : Z)
| EvPrint (l : log_line)
| EvEntry (e : db_entry).

Inductive outcome (A : Type) :=
| Done (a : A)
| Failed (e : string).
Arguments Done {A} a.
Arguments Failed {A} e.

(** Everything outside the request: whether a store command succeeds,
    what LRANGE answers and what the clock reads, each as a function of
    the history of the request so far (newest event first).  Clock values
    are microseconds since the epoch, UTC. *)
Record Env := {
  e_ok : list trace_event -> bool;
  e_range : list trace_event -> string -> Z -> Z -> option (list value);
  e_now : list trace_event -> Z }.

Fixpoint run {A} (env : Env) (h : list trace_event) (p : prog A)
  : list trace_event * outcome A :=
  match p with
  | Ret a => (h, Done a)
  | Raise e => (h, Failed e)
  | LPush k v c => let ok := e_ok env h in run env (EvLPush k v ok :: h) (c ok)
  | LRange k a b c =>
      let r := e_range env h k a b in run env (EvLRange k a b r :: h) (c r)
  | Del k c => let ok := e_ok env h in run env (EvDel k ok :: h) (c ok)
  | Now c => let t := e_now env h in run env (EvNow t :: h) (c t)
  | Sleep s c => run env (EvSleep s :: h) c
  | Print l c => run env (EvPrint l :: h) c
  | PrintEntry e c => run env (EvEntry e :: h) c
  end.

(** The events of a whole request, oldest first. *)
Definition trace {A} (env : Env) (p : prog A) : list trace_event :=
  rev (fst (run env [] p)).

(** An environment whose store reads all answer [read] and whose clock
    reads [now]. *)
Definition fixed_env (read : option (list value)) (now : Z) : Env :=
  {| e_ok := fun _ => true;
     e_range := fun _ _ _ _ => read;
     e_now := fun _ => now |}.

(* ------------------------------------------------------------------ *)
(** ** Pure helpers of the handlers *)

(** The key [f"chat:{chat_id}"] of a chat's Redis list. *)
Definition chat_key (chat : string) : string := ("chat:" ++ chat)%string.

(** Stable sort on precomputed keys, as [list.sort(key=...)] does after
    computing every key: an element is inserted before the first element
    whose key is not smaller, so equal keys keep their input order. *)
Fixpoint insert_by_key {A} (x : Z * A) (l : list (Z * A)) : list (Z * A) :=
  match l with
  | [] => [x]
  | y :: l' => if fst x <=? fst y then x :: l else y :: insert_by_key x l'
  end.

Fixpoint sort_by_key {A} (l : list (Z * A)) : list (Z * A) :=
  match l with
  | [] => []
  | x :: l' => insert_by_key x (sort_by_key l')
  end.

Definition quote : ascii := ascii_of_nat 34.
Definition backtick : ascii := ascii_of_nat 96.
Definition newline : string := String (ascii_of_nat 10) EmptyString.

(** [s.replace(a, b)] for one-character [a] and [b]. *)
Fixpoint replace_char (a b : ascii) (s : string) : string :=
  match s with
  | EmptyString => EmptyString
  | String c s' => String (if Ascii.eqb c a then b else c) (replace_char a b s')
  end.

(** One element of [content_parts] (lines 116-119). *)
Definition render_part (c : Content) : string :=
  match c with
  | CText s => s
  | CImage ic => ("[Image: " ++ image_id ic ++ "]")%string
  end.

(** [formatted_content = "\n".join(content_parts)] (lines 114-121). *)
Definition format_content (messages : list Message) : string :=
  String.concat newline (map (fun m => render_part (content m)) messages).

(** A stand-in for [dateutil.parser.parse(s).astimezone(tz.UTC)] used to
    build concrete instances: a decimal number of seconds since the epoch,
    read in microseconds. *)
Fixpoint digits_value (s : string) (acc : Z) : option Z :=
  match s with
  | EmptyString => Some acc
  | String c s' =>
      let n := Z.of_nat (nat_of_ascii c) - 48 in
      if (0 <=? n) && (n <=? 9) then digits_value s' (acc * 10 + n) else None
  end.

Definition example_parse_timestamp (s : string) : option Z :=
  match s with
  | EmptyString => None
  | _ => option_map (fun n => n * 1000000) (digits_value s 0)
  end.

(** The response dict of [send_message]; ["last_message"] is present only
    after a consolidation. *)
Record Response := {
  status : string;
  resp_data : Message;
  flow_status : string;
  last_message : option Message }.

(** The labels of the spec's FlowDecision, and the reading of the status
    strings the code returns. *)
Inductive FlowDecision := PROCEED | WAIT | SUPERSEDED.

Definition decision_of (o : outcome string) : option FlowDecision :=
  match o with
  | Done s =>
      if String.eqb s "prosseguir" then Some PROCEED
      else if String.eqb s "esperar" then Some WAIT
      else None
  | Failed _ => None
  end.

Definition http_500 (detail e : string) : string :=
  ("HTTPException(500): " ++ detail ++ e)%string.

(** [get_messages] (lines 211-217). *)
Definition get_messages (chat : string) (limit : Z) : prog (list Message) :=
  catch (messages <- lrange (chat_key chat) 0 (limit - 1) ;;
         raise_none (decode_all messages) "ValidationError")
        (fun e => Raise (http_500 "Erro ao recuperar mensagens: " e)).

(* ------------------------------------------------------------------ *)
(** ** The handlers *)

Section Service.

(** [parse_timestamp] (lines 92-94): [dateutil]'s parser, normalised to
    UTC, in microseconds since the epoch; [None] when it raises. *)
Variable parse_timestamp : string -> option Z.

Definition parse_ts (s : string) : prog Z :=
  raise_none (parse_timestamp s) "dateutil.parser.ParserError".

Fixpoint keys_of (messages : list Message) : option (list (Z * Message)) :=
  match messages with
  | [] => Some []
  | m :: ms =>
      match parse_timestamp (timestamp m), keys_of ms with
      | Some t, Some ks => Some ((t, m) :: ks)
      | _, _ => None
      end
  end.

(** [messages.sort(key=lambda x: parse_timestamp(x.timestamp))] *)
Definition sort_messages (messages : list Message) : option (list Message) :=
  option_map (fun ks => map snd (sort_by_key ks)) (keys_of messages).

(** [process_buffer_messages] (lines 96-138). *)
Definition process_buffer_messages (chat : string) : prog Message :=
  catch
    (buffer_messages <- lrange (chat_key chat) 0 (-1) ;;
     _ <- delete (chat_key chat) ;;
     match buffer_messages with
     | [] => Raise "ValueError: Buffer vazio"
     | _ =>
         messages <- raise_none (decode_all buffer_messages) "ValidationError" ;;
         sorted <- raise_none (sort_messages messages)
                             "dateutil.parser.ParserError" ;;
         let formatted_content := format_content sorted in
         Print LogSaving
           (PrintEntry {| entry_type := "human";
                          entry_content := replace_char quote backtick formatted_content |}
              (py_last sorted))
     end)
    (fun e => Print (LogBufferError e) (Raise e)).

(** [check_message_flow] (lines 140-172).  [time_diff > 3] on the float
    [total_seconds()] is [time_diff_us > 3000000] on microseconds. *)
Definition check_message_flow (chat : string) (current_message : Message)
  : prog string :=
  catch
    (buffer_messages <- lrange (chat_key chat) 0 (-1) ;;
     match buffer_messages with
     | [] => Ret "prosseguir"
     | _ =>
         messages <- raise_none (decode_all buffer_messages) "ValidationError" ;;
         last_msg <- py_first messages ;;
         current_ts <- now_utc ;;
         last_message_ts <- parse_ts (timestamp last_msg) ;;
         let time_diff := current_ts - last_message_ts in
         if 3000000 <? time_diff then Ret "prosseguir" else Ret "esperar"
     end)
    (fun e => Print (LogFlowError e) (Ret "prosseguir")).

(** [send_message] (lines 178-209). *)
Definition send_message (webhook : Webhook.WebhookPayload) : prog Response :=
  catch
    (let message := map_webhook_to_message webhook in
     let chat := chat_id message in
     _ <- lpush (chat_key chat) (VMsg message) ;;
     fs1 <- check_message_flow chat message ;;
     Print (LogStatus fs1)
       (fs <- (if String.eqb fs1 "esperar"
               then Sleep 3 (fs2 <- check_message_flow chat message ;;
                             Print (LogStatusAfterWait fs2) (Ret fs2))
               else Ret fs1) ;;
        if String.eqb fs "prosseguir"
        then (last <- process_buffer_messages chat ;;
              Ret {| status := "success"; resp_data := message;
                     flow_status := fs; last_message := Some last |})
        else Ret {| status := "success"; resp_data := message;
                    flow_status := fs; last_message := None |}))
    (fun e => Raise (http_500 "Erro ao processar mensagem: " e)).

(** The arbiter's decision [decide(chatKey, incoming, now)]: the outcome
    of [check_message_flow] when its LRANGE answers [read] ([None]: the
    command raised) and the clock reads [now]. *)
Definition decide (chat : string) (incoming : Message)
    (read : option (list value)) (now : Z) : outcome string :=
  snd (run (fixed_env read now) [] (check_message_flow chat incoming)).

End Service.

(* ------------------------------------------------------------------ *)
(** ** Interleaved requests over one Redis store *)

(** The Redis server seen by every client: a list per key (a missing key
    is the empty list), and the clock in microseconds. *)
Record World := {
  w_store : string -> list value;
  w_clock : Z }.

Definition store_set (w : World) (k : string) (l : list value) : World :=
  {| w_store := fun k' => if String.eqb k' k then l else w_store w k';
     w_clock := w_clock w |}.

(** One command of a request, executed atomically by the server: LPUSH
    prepends, LRANGE reads (and fails on an index outside 64 bits), DEL
    empties the key; LPUSH and DEL do not fail here. *)
Definition machine_step (w : World) (p : prog unit)
  : option (World * trace_event * prog unit) :=
  match p with
  | Ret _ | Raise _ => None
  | LPush k v c => Some (store_set w k (v :: w_store w k), EvLPush k v true, c true)
  | LRange k a b c =>
      let r := redis_lrange (w_store w k) a b in
      Some (w, EvLRange k a b r, c r)
  | Del k c => Some (store_set w k [], EvDel k true, c true)
  | Now c => Some (w, EvNow (w_clock w), c (w_clock w))
  | Sleep s c =>
      Some ({| w_store := w_store w; w_clock := w_clock w + s * 1000000 |},
            EvSleep s, c)
  | Print l c => Some (w, EvPrint l, c)
  | PrintEntry e c => Some (w, EvEntry e, c)
  end.

(** A request in flight: what remains of it and its events so far. *)
Definition thread : Type := (prog unit * list trace_event)%type.

Definition spawn {A} (p : prog A) : thread := (bind p (fun _ => Ret tt), []).

Fixpoint replace_nth {A} (l : list A) (i : nat) (x : A) : list A :=
  match l, i with
  | [], _ => []
  | _ :: l', O => x :: l'
  | y :: l', S i' => y :: replace_nth l' i' x
  end.

(** Runs the threads in the order given by [sched] (thread indices), one
    command per entry; a finished thread or a bad index is skipped. *)
Fixpoint run_schedule (w : World) (ths : list thread) (sched : list nat)
  : World * list thread :=
  match sched with
  | [] => (w, ths)
  | i :: sched' =>
      match nth_error ths i with
      | Some (p, tr) =>
          match machine_step w p with
          | Some (w', ev, p') =>
              run_schedule w' (replace_nth ths i (p', app tr [ev])) sched'
          | None => run_schedule w ths sched'
          end
      | None => run_schedule w ths sched'
      end
  end.

(** What a thread's LRANGE commands returned, in order. *)
Fixpoint range_reads (tr : list trace_event) : list (list value) :=
  match tr with
  | [] => []
  | EvLRange _ _ _ (Some l) :: tr' => l :: range_reads tr'
  | _ :: tr' => range_reads tr'
  end.

(* ------------------------------------------------------------------ *)
(** ** Concrete instances *)

Definition text_message (mid ts text : string) : Message :=
  {| message_id := mid; chat_id := "5511999999999@s.whatsapp.net";
     content_type := "conversation"; content := CText text;
     timestamp := ts; event := "messages.upsert"; user_name := "Ana" |}.

(** M1 at t = 10 s and M2 at t = 11 s, both for the same chat. *)
Definition msg1 : Message := text_message "M1" "10" "oi".
Definition msg2 : Message := text_message "M2" "11" "tudo bem?".

(** An inbound webhook; [conv] is its [message.conversation]. *)
Definition sample_webhook (mid mtype : string) (conv : option string)
    (date : string) : Webhook.WebhookPayload :=
  {| Webhook.event := "messages.upsert";
     Webhook.instance := "inst";
     Webhook.data :=
       {| Webhook.key := {| Webhook.remoteJid := "5511999999999@s.whatsapp.net";
                            Webhook.fromMe := false;
                            Webhook.id := mid |};
          Webhook.pushName := "Ana";
          Webhook.message := {| Webhook.conversation := conv;
                                Webhook.messageContextInfo := None |};
          Webhook.messageType := mtype;
          Webhook.messageTimestamp := 11;
          Webhook.instanceId := "inst-id";
          Webhook.source := "android" |};
     Webhook.destination := "http://localhost:8000/message";
     Webhook.date_time := date;
     Webhook.sender := "5511888888888@s.whatsapp.net";
     Webhook.server_url := "http://evolution";
     Webhook.apikey := "key" |}.

(** The store before the race: M1 buffered for its chat. *)
Definition world_with_msg1 : World :=
  {| w_store := fun k => if String.eqb k (chat_key (chat_id msg1))
                         then [VMsg msg1] else [];
     w_clock := 15000000 |}.

(** A drain (the consolidation of M1's request) and the request of a new
    message for the same chat, interleaved: LRANGE of the drain, LPUSH of
    the new request, DEL of the drain. *)
Definition race_result : World * list thread :=
  run_schedule world_with_msg1
    [spawn (process_buffer_messages example_parse_timestamp (chat_id msg1));
     spawn (send_message example_parse_timestamp
              (sample_webhook "M2" "conversation" (Some "tudo bem?") "11"))]
    [0; 1; 0]%nat.

(** The message of the new request of [race_result]. *)
Definition racing_message : Message :=
  map_webhook_to_message
    (sample_webhook "M2" "conversation" (Some "tudo bem?") "11").

(** An environment whose store is [sigma]: no command fails, except an
    LRANGE whose indices the server rejects. *)
Definition store_env (sigma : string -> list value) : Env :=
  {| e_ok := fun _ => true;
     e_range := fun _ k a b => redis_lrange (sigma k) a b;
     e_now := fun _ => 0 |}.

(** Three messages with timestamps T3 = 9 s < T1 = 12 s < T2 = 13 s; the
    content of [msgC] holds a double quote. *)
Definition msgA : Message := text_message "A" "12" "primeiro".
Definition msgB : Message := text_message "B" "13" "segundo".
Definition msgC : Message :=
  text_message "C" "9" ("disse " ++ String quote "oi" ++ String quote EmptyString).

(** Event classes of a trace. *)
Definition is_sleep (ev : trace_event) : bool :=
  match ev with EvSleep _ => true | _ => false end.
Definition is_status (ev : trace_event) : bool :=
  match ev with EvPrint (LogStatus _) => true | _ => false end.
Definition is_status_after_wait (ev : trace_event) : bool :=
  match ev with EvPrint (LogStatusAfterWait _) => true | _ => false end.

(* ------------------------------------------------------------------ *)
(** * Proofs *)

(** ** Running composed programs *)

Lemma run_bind {A B} (env : Env) (p : prog A) (f : A -> prog B) h :
  run env h (bind p f) =
  match run env h p with
  | (h', Done a) => run env h' (f a)
  | (h', Failed e) => (h', Failed e)
  end.
Proof.
  revert h; induction p; intros h; simpl; auto.
Qed.

Lemma run_catch {A} (env : Env) (p : prog A) (k : string -> prog A) h :
  run env h (catch p k) =
  match run env h p with
  | (h', Done a) => (h', Done a)
  | (h', Failed e) => run env h' (k e)
  end.
Proof.
  revert h; induction p; intros h; simpl; auto.
Qed.

Ltac case_match :=
  match goal with
  | |- context [match ?x with _ => _ end] => destruct x eqn:?
  end.

Definition harmless (ev : trace_event) : Prop :=
  is_sleep ev = false /\ is_status ev = false /\ is_status_after_wait ev = false.

(** Timestamp order on keyed messages, and a message paired with its
    parsed timestamp (0 when it does not parse). *)
Definition key_le {A} (x y : Z * A) : Prop := fst x <= fst y.

Definition keyed (parse_timestamp : string -> option Z) (m : Message) : Z * Message :=
  (match parse_timestamp (timestamp m) with Some t => t | None => 0 end, m).

(** A program that neither sleeps nor prints a flow status, whatever the
    environment answers. *)
Fixpoint quiet {A} (p : prog A) : Prop :=
  match p with
  | Ret _ | Raise _ => True
  | LPush _ _ c => forall ok, quiet (c ok)
  | LRange _ _ _ c => forall r, quiet (c r)
  | Del _ c => forall ok, quiet (c ok)
  | Now c => forall t, quiet (c t)
  | Sleep _ _ => False
  | Print l c => harmless (EvPrint l) /\ quiet c
  | PrintEntry _ c => quiet c
  end.

(** A program every event of which satisfies [P], whatever the
    environment answers. *)
Fixpoint emits_only {A} (P : trace_event -> Prop) (p : prog A) : Prop :=
  match p with
  | Ret _ | Raise _ => True
  | LPush k v c => forall ok, P (EvLPush k v ok) /\ emits_only P (c ok)
  | LRange k a b c => forall r, P (EvLRange k a b r) /\ emits_only P (c r)
  | Del k c => forall ok, P (EvDel k ok) /\ emits_only P (c ok)
  | Now c => forall t, P (EvNow t) /\ emits_only P (c t)
  | Sleep s c => P (EvSleep s) /\ emits_only P c
  | Print l c => P (EvPrint l) /\ emits_only P c
  | PrintEntry e c => P (EvEntry e) /\ emits_only P c
  end.

(** Store commands only on key [k]. *)
Definition on_key (k : string) (ev : trace_event) : Prop :=
  match ev with
  | EvLPush k' _ _ | EvLRange k' _ _ _ | EvDel k' _ => k' = k
  | _ => True
  end.

(** No store write (LPUSH or DEL). *)
Definition read_only (ev : trace_event) : Prop :=
  match ev with EvLPush _ _ _ | EvDel _ _ => False | _ => True end.

(** A printed db entry whose content holds no double quote. *)
Definition entry_unquoted (ev : trace_event) : Prop :=
  match ev with
  | EvEntry e => forall n, String.get n (entry_content e) <> Some quote
  | _ => True
  end.

(** No DEL. *)
Definition no_del (ev : trace_event) : Prop :=
  match ev with EvDel _ _ => False | _ => True end.

(** No LPUSH. *)
Definition no_push (ev : trace_event) : Prop :=
  match ev with EvLPush _ _ _ => False | _ => True end.

Ltac z_cases :=
  repeat match goal with
  | |- context [?a <? ?b] => destruct (Z.ltb_spec a b)
  | |- context [?a <=? ?b] => destruct (Z.leb_spec a b)
  end; simpl; try lia.

Section Proofs.
Local Open Scope list_scope.

Variable parse_timestamp : string -> option Z.

(** The arbiter always returns one of its two statuses and adds neither a
    sleep nor a status line to the history. *)
Lemma check_message_flow_total env h chat m :
  exists ext s,
    run env h (check_message_flow parse_timestamp chat m) = ((ext ++ h)%list, Done s) /\
    (s = "prosseguir" \/ s = "esperar") /\ Forall harmless ext.
Proof.
  unfold check_message_flow, lrange, now_utc, parse_ts, raise_none, py_first.
  simpl.
  repeat (case_match; simpl).
  all: first [ eexists [_]; eexists; split; [reflexivity|]
             | eexists [_; _]; eexists; split; [reflexivity|]
             | eexists [_; _; _]; eexists; split; [reflexivity|] ];
       split; [auto | repeat constructor].
Qed.

Lemma decide_total chat m read now :
  exists s, decide parse_timestamp chat m read now = Done s /\
            (s = "prosseguir" \/ s = "esperar").
Proof.
  destruct (check_message_flow_total (fixed_env read now) [] chat m)
    as (ext & s & Hrun & Hs & _).
  exists s. unfold decide. rewrite Hrun. auto.
Qed.

(** ** The arbiter *)

(** C1 (as amended).  The arbiter has no third outcome: whatever the buffer
    read, the clock and the incoming message, [check_message_flow] decides
    PROCEED or WAIT, never SUPERSEDED (no oldest-message check exists). *)
Theorem check_message_flow_two_outcomes chat incoming read now :
  decision_of (decide parse_timestamp chat incoming read now) = Some PROCEED \/
  decision_of (decide parse_timestamp chat incoming read now) = Some WAIT.
Proof.
  destruct (decide_total chat incoming read now) as (s & -> & [-> | ->]);
    [left | right]; reflexivity.
Qed.

(** C2.  With an empty buffer the arbiter decides PROCEED; otherwise, with
    [newest] the front of the buffer and [t] its timestamp, it decides
    PROCEED when [now - t] exceeds 3 s (3000000 us) and WAIT when not. *)
Theorem check_message_flow_timing chat incoming buf now :
  (buf = [] ->
   decide parse_timestamp chat incoming (Some buf) now = Done "prosseguir") /\
  (forall newest rest t,
     decode_all buf = Some (newest :: rest) ->
     parse_timestamp (timestamp newest) = Some t ->
     decide parse_timestamp chat incoming (Some buf) now =
       if 3000000 <? now - t then Done "prosseguir" else Done "esperar").
Proof.
  split.
  - intros ->. reflexivity.
  - intros newest rest t Hdec Hts.
    destruct buf as [|v buf']; [discriminate|].
    unfold decide, check_message_flow, lrange, now_utc, parse_ts, raise_none,
      py_first.
    cbn -[decode_all]. rewrite Hdec. cbn. rewrite Hts. cbn.
    destruct (3000000 <? now - t); reflexivity.
Qed.

(** C7.  Fail-open: a store read that raises, a buffered entry that does
    not decode, or a newest timestamp that does not parse all give PROCEED;
    and under any environment the arbiter returns a status, never an
    error. *)
Theorem check_message_flow_fail_open chat incoming now :
  decide parse_timestamp chat incoming None now = Done "prosseguir" /\
  (forall buf, buf <> [] -> decode_all buf = None ->
     decide parse_timestamp chat incoming (Some buf) now = Done "prosseguir") /\
  (forall buf newest rest,
     decode_all buf = Some (newest :: rest) ->
     parse_timestamp (timestamp newest) = None ->
     decide parse_timestamp chat incoming (Some buf) now = Done "prosseguir") /\
  (forall env h, exists h' s,
     run env h (check_message_flow parse_timestamp chat incoming) = (h', Done s)).
Proof.
  split; [reflexivity|]. split; [|split].
  - intros buf Hne Hdec. destruct buf as [|v buf']; [congruence|].
    unfold decide, check_message_flow, lrange, raise_none.
    cbn -[decode_all]. rewrite Hdec. reflexivity.
  - intros buf newest rest Hdec Hts.
    destruct buf as [|v buf']; [discriminate|].
    unfold decide, check_message_flow, lrange, now_utc, parse_ts, raise_none,
      py_first.
    cbn -[decode_all]. rewrite Hdec. cbn. rewrite Hts. reflexivity.
  - intros env h.
    destruct (check_message_flow_total env h chat incoming)
      as (ext & s & Hrun & _). eauto.
Qed.

(** C9.  The incoming message plays no part in the decision: two incoming
    messages get the same decision for every buffer read and clock, and
    indeed the same run under every environment. *)
Theorem check_message_flow_ignores_incoming chat m1 m2 :
  (forall read now,
     decide parse_timestamp chat m1 read now =
     decide parse_timestamp chat m2 read now) /\
  (forall env h,
     run env h (check_message_flow parse_timestamp chat m1) =
     run env h (check_message_flow parse_timestamp chat m2)).
Proof.
  split; reflexivity.
Qed.

(** ** The stable sort *)

Lemma insert_by_key_perm {A} (x : Z * A) l :
  Permutation (insert_by_key x l) (x :: l).
Proof.
  induction l as [|y l IH]; simpl; [auto|].
  destruct (fst x <=? fst y); [auto|].
  eapply perm_trans; [apply perm_skip, IH | apply perm_swap].
Qed.

Lemma sort_by_key_perm {A} (l : list (Z * A)) : Permutation (sort_by_key l) l.
Proof.
  induction l as [|x l IH]; simpl; [auto|].
  eapply perm_trans; [apply insert_by_key_perm | auto].
Qed.

Lemma insert_by_key_sorted {A} (x : Z * A) l :
  StronglySorted key_le l -> StronglySorted key_le (insert_by_key x l).
Proof.
  induction l as [|y l IH]; simpl; intros Hs.
  - repeat constructor.
  - inversion Hs as [|? ? Hl Hall]; subst.
    destruct (fst x <=? fst y) eqn:E.
    + apply Z.leb_le in E. constructor; [assumption|]. constructor; [exact E|].
      eapply Forall_impl; [|exact Hall]. unfold key_le; intros z Hz; lia.
    + apply Z.leb_gt in E. constructor; [auto|].
      apply Forall_forall. intros z Hz.
      apply (Permutation_in _ (insert_by_key_perm x l)) in Hz.
      destruct Hz as [<-|Hz]; unfold key_le; [lia|].
      rewrite Forall_forall in Hall. apply Hall, Hz.
Qed.

Lemma sort_by_key_sorted {A} (l : list (Z * A)) :
  StronglySorted key_le (sort_by_key l).
Proof.
  induction l as [|x l IH]; simpl; [constructor|].
  apply insert_by_key_sorted, IH.
Qed.

(** Equal keys keep their relative order. *)
Lemma insert_by_key_filter {A} (x : Z * A) l t :
  filter (fun z => fst z =? t) (insert_by_key x l) =
  filter (fun z => fst z =? t) (x :: l).
Proof.
  induction l as [|y l IH]; simpl; [reflexivity|].
  destruct (fst x <=? fst y) eqn:E; [reflexivity|].
  apply Z.leb_gt in E. simpl. rewrite IH. simpl.
  destruct (fst y =? t) eqn:Ey, (fst x =? t) eqn:Ex; auto.
  apply Z.eqb_eq in Ey, Ex. lia.
Qed.

Lemma sort_by_key_stable {A} (l : list (Z * A)) t :
  filter (fun z => fst z =? t) (sort_by_key l) = filter (fun z => fst z =? t) l.
Proof.
  induction l as [|x l IH]; simpl; [reflexivity|].
  rewrite insert_by_key_filter. simpl. rewrite IH. reflexivity.
Qed.

Lemma strongly_sorted_last {A} (pre : list (Z * A)) z :
  StronglySorted key_le (pre ++ [z]) ->
  forall x, In x (pre ++ [z]) -> fst x <= fst z.
Proof.
  induction pre as [|y pre IH]; simpl; intros Hs x Hx.
  - destruct Hx as [<-|[]]; lia.
  - inversion Hs as [|? ? Hl Hall]; subst.
    destruct Hx as [<-|Hx].
    + rewrite Forall_forall in Hall. apply Hall, in_or_app. right; left; auto.
    + apply IH; auto.
Qed.

Lemma strongly_sorted_unique {A} (l1 l2 : list (Z * A)) :
  StronglySorted key_le l1 -> StronglySorted key_le l2 -> Permutation l1 l2 ->
  (forall x y, In x l2 -> In y l2 -> fst x = fst y -> x = y) -> l1 = l2.
Proof.
  revert l2; induction l1 as [|x l1 IH]; intros l2 H1 H2 Hp Hu.
  - symmetry. apply Permutation_nil, Hp.
  - destruct l2 as [|y l2].
    { apply Permutation_sym, Permutation_nil_cons in Hp. contradiction. }
    inversion H1 as [|? ? H1' Hall1]; inversion H2 as [|? ? H2' Hall2]; subst.
    assert (x = y) as <-.
    { assert (Hx : In x (y :: l2)) by (eapply Permutation_in; [exact Hp | left; auto]).
      assert (Hy : In y (x :: l1))
        by (eapply Permutation_in; [apply Permutation_sym, Hp | left; auto]).
      destruct Hx as [->|Hx]; [reflexivity|].
      destruct Hy as [->|Hy]; [reflexivity|].
      rewrite Forall_forall in Hall1, Hall2.
      specialize (Hall1 y Hy). specialize (Hall2 x Hx). unfold key_le in *.
      symmetry. apply Hu; [left; auto | right; auto | lia]. }
    f_equal. apply IH; auto.
    + apply Permutation_cons_inv with x. exact Hp.
    + intros a b Ha Hb. apply Hu; right; auto.
Qed.

(** ** Consolidation *)

Lemma keys_of_spec ms ks :
  keys_of parse_timestamp ms = Some ks ->
  map snd ks = ms /\
  Forall (fun x => parse_timestamp (timestamp (snd x)) = Some (fst x)) ks.
Proof.
  revert ks; induction ms as [|m ms IH]; simpl; intros ks Hk.
  - injection Hk as <-. auto.
  - destruct (parse_timestamp (timestamp m)) eqn:Ht; [|discriminate].
    destruct (keys_of parse_timestamp ms) as [ks'|]; [|discriminate].
    injection Hk as <-. destruct (IH ks' eq_refl) as [H1 H2].
    simpl. rewrite H1. auto.
Qed.

Lemma keys_of_total ms :
  (forall m, In m ms -> exists t, parse_timestamp (timestamp m) = Some t) ->
  exists ks, keys_of parse_timestamp ms = Some ks.
Proof.
  induction ms as [|m ms IH]; simpl; intros Hall; [eauto|].
  destruct (Hall m (or_introl eq_refl)) as [t ->].
  destruct IH as [ks ->]; eauto.
Qed.

Lemma decode_all_map ms : decode_all (map VMsg ms) = Some ms.
Proof.
  induction ms as [|m ms IH]; simpl; [reflexivity|]. rewrite IH. reflexivity.
Qed.

Lemma decode_all_length buf ms :
  decode_all buf = Some ms -> length ms = length buf.
Proof.
  revert ms; induction buf as [|v buf IH]; simpl; intros ms H.
  - injection H as <-. reflexivity.
  - destruct (decode v), (decode_all buf) as [ms'|]; try discriminate.
    injection H as <-. simpl. rewrite (IH ms' eq_refl). reflexivity.
Qed.

(** One consolidation run over the drained buffer [buf]: the events it
    leaves and the message it returns. *)
Lemma process_buffer_messages_run chat buf now h messages ks :
  buf <> [] -> decode_all buf = Some messages ->
  keys_of parse_timestamp messages = Some ks ->
  exists pre z,
    sort_by_key ks = pre ++ [z] /\
    run (fixed_env (Some buf) now) h (process_buffer_messages parse_timestamp chat) =
    (EvEntry {| entry_type := "human";
                entry_content := replace_char quote backtick
                                   (format_content (map snd (sort_by_key ks))) |}
       :: EvPrint LogSaving :: EvDel (chat_key chat) true
       :: EvLRange (chat_key chat) 0 (-1) (Some buf) :: h,
     Done (snd z)).
Proof.
  intros Hne Hdec Hks.
  destruct (keys_of_spec _ _ Hks) as [Hsnd _].
  assert (Hlen : length (sort_by_key ks) = length buf).
  { rewrite (Permutation_length (sort_by_key_perm ks)).
    rewrite <- (decode_all_length _ _ Hdec), <- Hsnd, length_map. reflexivity. }
  destruct (exists_last (l := sort_by_key ks)) as (pre & z & Hpz).
  { intros E. rewrite E in Hlen. destruct buf; [congruence | discriminate]. }
  exists pre, z. split; [exact Hpz|].
  destruct buf as [|v buf']; [congruence|].
  unfold process_buffer_messages, lrange, delete, raise_none, sort_messages.
  cbn -[decode_all keys_of sort_by_key format_content replace_char].
  rewrite Hdec. cbn -[keys_of sort_by_key format_content replace_char].
  rewrite Hks. cbn -[sort_by_key format_content replace_char].
  unfold py_last. rewrite Hpz, map_app, rev_app_distr. reflexivity.
Qed.

Lemma keys_of_keyed ms ks :
  keys_of parse_timestamp ms = Some ks -> ks = map (keyed parse_timestamp) ms.
Proof.
  intros Hk. destruct (keys_of_spec _ _ Hk) as [<- Hall]. clear Hk.
  induction Hall as [|[t m] ks Hx Hall IH]; simpl in *; [reflexivity|].
  unfold keyed at 1. simpl. rewrite Hx. f_equal. exact IH.
Qed.

(** C3.  Consolidation of a non-empty drained buffer whose entries decode
    and whose timestamps parse: [ks] pairs each buffered message with its
    timestamp, in buffer order; the fragments of the saved payload are the
    messages of [sorted], a permutation of [ks] sorted ascending by
    timestamp in which equal timestamps keep their buffer order; the
    message returned is the last of [sorted], whose timestamp is the
    greatest.  For three messages with timestamps T3 < T1 < T2, in any
    buffer order, the fragment order is T3, T1, T2. *)
Theorem process_buffer_messages_order chat buf messages now h :
  buf <> [] -> decode_all buf = Some messages ->
  (forall m, In m messages -> exists t, parse_timestamp (timestamp m) = Some t) ->
  exists ks sorted rep h',
    keys_of parse_timestamp messages = Some ks /\
    map snd ks = messages /\
    Forall (fun x => parse_timestamp (timestamp (snd x)) = Some (fst x)) ks /\
    sorted = sort_by_key ks /\
    run (fixed_env (Some buf) now) h (process_buffer_messages parse_timestamp chat) =
      (h', Done rep) /\
    In (EvEntry {| entry_type := "human";
                   entry_content := replace_char quote backtick
                                      (format_content (map snd sorted)) |}) h' /\
    Permutation sorted ks /\
    Sorted key_le sorted /\
    (forall t, filter (fun x => fst x =? t) sorted = filter (fun x => fst x =? t) ks) /\
    (exists pre t_rep, sorted = pre ++ [(t_rep, rep)] /\
                       forall x, In x ks -> fst x <= t_rep) /\
    (forall m1 m2 m3 t1 t2 t3,
       Permutation messages [m1; m2; m3] ->
       parse_timestamp (timestamp m1) = Some t1 ->
       parse_timestamp (timestamp m2) = Some t2 ->
       parse_timestamp (timestamp m3) = Some t3 ->
       t3 < t1 -> t1 < t2 ->
       map snd sorted = [m3; m1; m2]).
Proof.
  intros Hne Hdec Hts.
  destruct (keys_of_total _ Hts) as [ks Hks].
  destruct (keys_of_spec _ _ Hks) as [Hsnd Hkeys].
  destruct (process_buffer_messages_run chat buf now h messages ks Hne Hdec Hks)
    as (pre & z & Hpz & Hrun).
  eexists ks, (sort_by_key ks), (snd z), _.
  split; [exact Hks|]. split; [exact Hsnd|]. split; [exact Hkeys|].
  split; [reflexivity|]. split; [exact Hrun|]. split; [left; reflexivity|].
  split; [apply sort_by_key_perm|].
  split; [apply StronglySorted_Sorted, sort_by_key_sorted|].
  split; [intros t; apply sort_by_key_stable|].
  split.
  - exists pre, (fst z). split; [rewrite Hpz; destruct z; reflexivity|].
    intros x Hx. apply (strongly_sorted_last pre z).
    + rewrite <- Hpz. apply sort_by_key_sorted.
    + rewrite <- Hpz. apply (Permutation_in _ (Permutation_sym (sort_by_key_perm ks)) Hx).
  - intros m1 m2 m3 t1 t2 t3 Hp H1 H2 H3 H31 H12.
    assert (Hsorted : sort_by_key ks = [(t3, m3); (t1, m1); (t2, m2)]).
    { apply strongly_sorted_unique.
      - apply sort_by_key_sorted.
      - repeat constructor; unfold key_le; simpl; lia.
      - eapply perm_trans; [apply sort_by_key_perm|].
        rewrite (keys_of_keyed _ _ Hks).
        eapply perm_trans; [apply Permutation_map, Hp|].
        unfold keyed; simpl; rewrite H1, H2, H3.
        apply Permutation_sym.
        exact (Permutation_cons_append [(t1, m1); (t2, m2)] (t3, m3)).
      - simpl. intros x y Hx Hy Hxy.
        repeat (destruct Hx as [<-|Hx]); try contradiction;
        repeat (destruct Hy as [<-|Hy]); try contradiction;
        simpl in Hxy; try reflexivity; lia. }
    rewrite Hsorted. reflexivity.
Qed.

Lemma replace_char_append a b s1 s2 :
  replace_char a b (s1 ++ s2)%string =
  (replace_char a b s1 ++ replace_char a b s2)%string.
Proof.
  induction s1 as [|c s1 IH]; simpl; [reflexivity|]. rewrite IH. reflexivity.
Qed.

Lemma replace_char_concat a b sep l :
  replace_char a b (String.concat sep l) =
  String.concat (replace_char a b sep) (map (replace_char a b) l).
Proof.
  induction l as [|s l IH]; [reflexivity|].
  destruct l as [|s' l]; [reflexivity|].
  change (String.concat sep (s :: s' :: l))
    with (s ++ sep ++ String.concat sep (s' :: l))%string.
  rewrite !replace_char_append, IH. reflexivity.
Qed.

Lemma text_fragments (ms : list Message) :
  Forall (fun m => exists s, content m = CText s) ms ->
  Forall2 (fun f m => exists s, content m = CText s /\
                                f = replace_char quote backtick s)
    (map (fun m => replace_char quote backtick (render_part (content m))) ms) ms.
Proof.
  induction 1 as [|m ms [s Hs] Hall IH]; simpl; constructor; auto.
  exists s. rewrite Hs. auto.
Qed.

(** C4.  Round trip: draining a buffer holding N text messages (in any
    order) saves a payload made of exactly N fragments joined by newlines,
    each the content of one of the messages with every double quote turned
    into a backtick (the messages taken in timestamp order); an image
    content renders as [[Image: <image_id>]]. *)
Theorem consolidation_round_trip chat msgs now h :
  msgs <> [] ->
  (forall m, In m msgs -> exists s, content m = CText s) ->
  (forall m, In m msgs -> exists t, parse_timestamp (timestamp m) = Some t) ->
  (forall ic, render_part (CImage ic) = ("[Image: " ++ image_id ic ++ "]")%string) /\
  exists sorted frags rep h',
    Permutation sorted msgs /\
    run (fixed_env (Some (map VMsg msgs)) now) h
        (process_buffer_messages parse_timestamp chat) = (h', Done rep) /\
    In (EvEntry {| entry_type := "human";
                   entry_content := String.concat newline frags |}) h' /\
    length frags = length msgs /\
    Forall2 (fun f m => exists s, content m = CText s /\
                                  f = replace_char quote backtick s)
      frags sorted.
Proof.
  intros Hne Htext Hts. split; [reflexivity|].
  destruct (keys_of_total _ Hts) as [ks Hks].
  destruct (keys_of_spec _ _ Hks) as [Hsnd _].
  assert (Hbuf : map VMsg msgs <> []) by (destruct msgs; simpl; congruence).
  destruct (process_buffer_messages_run chat (map VMsg msgs) now h msgs ks Hbuf
              (decode_all_map msgs) Hks) as (pre & z & _ & Hrun).
  assert (Hperm : Permutation (map snd (sort_by_key ks)) msgs).
  { rewrite <- Hsnd. apply Permutation_map, sort_by_key_perm. }
  eexists (map snd (sort_by_key ks)),
    (map (fun m => replace_char quote backtick (render_part (content m)))
         (map snd (sort_by_key ks))), (snd z), _.
  split; [exact Hperm|]. split; [exact Hrun|]. split; [|split].
  - left. unfold format_content. rewrite replace_char_concat, map_map.
    reflexivity.
  - rewrite length_map. apply Permutation_length, Hperm.
  - apply text_fragments, Forall_forall. intros m Hm.
    apply Htext, (Permutation_in _ Hperm Hm).
Qed.

(** ** The read endpoint *)

Lemma lrange_list_prefix {A} (l : list A) limit :
  1 <= limit -> lrange_list l 0 (limit - 1) = firstn (Z.to_nat limit) l.
Proof.
  intros Hl. unfold lrange_list. simpl. z_cases.
  - destruct l; simpl in *; [destruct (Z.to_nat limit); reflexivity | lia].
  - replace (Z.of_nat (length l) - 1 - 0 + 1) with (Z.of_nat (length l)) by lia.
    rewrite Nat2Z.id, firstn_all, firstn_all2; [reflexivity|].
    apply Nat2Z.inj_le. rewrite Z2Nat.id; lia.
  - f_equal. lia.
Qed.

Lemma lrange_list_all {A} (l : list A) : lrange_list l 0 (-1) = l.
Proof.
  unfold lrange_list. simpl. z_cases.
  - destruct l; simpl in *; [reflexivity | lia].
  - apply firstn_all2. lia.
Qed.

Lemma decode_all_firstn buf ms n :
  decode_all buf = Some ms -> decode_all (firstn n buf) = Some (firstn n ms).
Proof.
  revert buf ms; induction n as [|n IH]; intros buf ms H; [reflexivity|].
  destruct buf as [|v buf]; simpl in *.
  - injection H as <-. reflexivity.
  - destruct (decode v), (decode_all buf) as [ms'|] eqn:E; try discriminate.
    injection H as <-. simpl. rewrite (IH _ _ E). reflexivity.
Qed.

Lemma in_int64_spec z :
  in_int64 z = true <-> int64_min <= z <= int64_max.
Proof.
  unfold in_int64. rewrite andb_true_iff, !Z.leb_le. reflexivity.
Qed.

Lemma redis_lrange_in_range {A} (l : list A) a b :
  int64_min <= a <= int64_max -> int64_min <= b <= int64_max ->
  redis_lrange l a b = Some (lrange_list l a b).
Proof.
  intros Ha Hb. unfold redis_lrange.
  apply in_int64_spec in Ha. apply in_int64_spec in Hb. rewrite Ha, Hb.
  reflexivity.
Qed.

Lemma redis_lrange_stop_out {A} (l : list A) a b :
  int64_max < b -> redis_lrange l a b = None.
Proof.
  intros Hb. unfold redis_lrange.
  destruct (in_int64 b) eqn:E; [|rewrite andb_false_r; reflexivity].
  apply in_int64_spec in E. lia.
Qed.

Lemma int64_bounds : int64_min < 0 /\ 0 < int64_max.
Proof.
  unfold int64_min, int64_max. split; lia.
Qed.

(** [GET /messages/{chat_id}] over the store [sigma]. *)
Lemma get_messages_store_run sigma chat limit h :
  snd (run (store_env sigma) h (get_messages chat limit)) =
  match redis_lrange (sigma (chat_key chat)) 0 (limit - 1) with
  | Some l => match decode_all l with
              | Some ms => Done ms
              | None => Failed (http_500 "Erro ao recuperar mensagens: " "ValidationError")
              end
  | None => Failed (http_500 "Erro ao recuperar mensagens: " redis_error)
  end.
Proof.
  unfold get_messages, lrange, raise_none.
  cbn [run store_env e_range catch bind].
  destruct (redis_lrange _ _ _) as [l|]; cbn [run catch bind];
    [destruct (decode_all l)|]; reflexivity.
Qed.

(** C10 (as amended).  [GET /messages/{chat_id}] over a store whose
    entries for the chat decode to [msgs] (front first, i.e. most recently
    pushed first): with [1 <= limit <= 2^63], so that the range end
    [limit - 1] is a 64-bit integer, it returns the first [limit] of them,
    at most [limit] messages; with [limit = 0] the range end
    [limit - 1 = -1] is the last index and it returns the whole buffer;
    with [limit > 2^63] Redis rejects the index and the endpoint fails with
    HTTP 500, returning no messages. *)
Theorem get_messages_limit sigma chat limit h msgs :
  decode_all (sigma (chat_key chat)) = Some msgs ->
  (1 <= limit <= int64_max + 1 ->
   snd (run (store_env sigma) h (get_messages chat limit)) =
     Done (firstn (Z.to_nat limit) msgs) /\
   (length (firstn (Z.to_nat limit) msgs) <= Z.to_nat limit)%nat) /\
  (limit = 0 ->
   snd (run (store_env sigma) h (get_messages chat limit)) = Done msgs) /\
  (int64_max + 1 < limit ->
   snd (run (store_env sigma) h (get_messages chat limit)) =
     Failed (http_500 "Erro ao recuperar mensagens: " redis_error)).
Proof.
  intros Hdec. pose proof int64_bounds as Hb.
  split; [|split].
  - intros Hl. split.
    + rewrite get_messages_store_run, redis_lrange_in_range by lia.
      rewrite (lrange_list_prefix _ _ (proj1 Hl)).
      rewrite (decode_all_firstn _ _ (Z.to_nat limit) Hdec). reflexivity.
    + rewrite length_firstn. apply Nat.le_min_l.
  - intros ->. rewrite get_messages_store_run, redis_lrange_in_range by lia.
    rewrite lrange_list_all, Hdec. reflexivity.
  - intros Hl. rewrite get_messages_store_run, redis_lrange_stop_out by lia.
    reflexivity.
Qed.

(** ** The inbound mapping *)

(** C6 (as amended).  [map_webhook_to_message] always builds a text
    content, the webhook's [conversation] or the empty string, and copies
    [messageType] into [content_type] whatever it is: no image descriptor
    is ever produced. *)
Theorem map_webhook_to_message_text_content webhook :
  content (map_webhook_to_message webhook) =
    CText (match Webhook.conversation (Webhook.message (Webhook.data webhook)) with
           | Some s => s
           | None => EmptyString
           end) /\
  content_type (map_webhook_to_message webhook) =
    Webhook.messageType (Webhook.data webhook).
Proof.
  split; reflexivity.
Qed.

(** ** One request: at most one wait *)

Lemma quiet_bind {A B} (p : prog A) (f : A -> prog B) :
  quiet p -> (forall a, quiet (f a)) -> quiet (bind p f).
Proof.
  induction p; simpl; intros Hp Hf; intuition.
Qed.

Lemma quiet_catch {A} (p : prog A) (k : string -> prog A) :
  quiet p -> (forall e, quiet (k e)) -> quiet (catch p k).
Proof.
  induction p; simpl; intros Hp Hk; intuition.
Qed.

Lemma quiet_run {A} env (p : prog A) h :
  quiet p ->
  exists ext o, run env h p = (ext ++ h, o) /\ Forall harmless ext.
Proof.
  revert h; induction p as [a|e|k v c IH|k a b c IH|k c IH|c IH|s c IH|l c IH|en c IH];
    intros h Hq; simpl in *.
  - exists [], (Done a). auto.
  - exists [], (Failed e). auto.
  - destruct (IH (e_ok env h) (EvLPush k v (e_ok env h) :: h) (Hq _)) as (ext & o & -> & Hx).
    exists (ext ++ [EvLPush k v (e_ok env h)]), o.
    rewrite <- app_assoc. split; [reflexivity|].
    apply Forall_app; split; [exact Hx | repeat constructor].
  - destruct (IH (e_range env h k a b) (EvLRange k a b (e_range env h k a b) :: h) (Hq _)) as (ext & o & -> & Hx).
    exists (ext ++ [EvLRange k a b (e_range env h k a b)]), o.
    rewrite <- app_assoc. split; [reflexivity|].
    apply Forall_app; split; [exact Hx | repeat constructor].
  - destruct (IH (e_ok env h) (EvDel k (e_ok env h) :: h) (Hq _)) as (ext & o & -> & Hx).
    exists (ext ++ [EvDel k (e_ok env h)]), o.
    rewrite <- app_assoc. split; [reflexivity|].
    apply Forall_app; split; [exact Hx | repeat constructor].
  - destruct (IH (e_now env h) (EvNow (e_now env h) :: h) (Hq _)) as (ext & o & -> & Hx).
    exists (ext ++ [EvNow (e_now env h)]), o.
    rewrite <- app_assoc. split; [reflexivity|].
    apply Forall_app; split; [exact Hx | repeat constructor].
  - contradiction.
  - destruct Hq as [Hl Hq].
    destruct (IH (EvPrint l :: h) Hq) as (ext & o & -> & Hx).
    exists (ext ++ [EvPrint l]), o.
    rewrite <- app_assoc. split; [reflexivity|].
    apply Forall_app; split; [exact Hx | repeat constructor; apply Hl].
  - destruct (IH (EvEntry en :: h) Hq) as (ext & o & -> & Hx).
    exists (ext ++ [EvEntry en]), o.
    rewrite <- app_assoc. split; [reflexivity|].
    apply Forall_app; split; [exact Hx | repeat constructor].
Qed.

Lemma process_buffer_messages_quiet chat :
  quiet (process_buffer_messages parse_timestamp chat).
Proof.
  unfold process_buffer_messages.
  apply quiet_catch; [|intros e; repeat split].
  apply quiet_bind; [intros []; simpl; auto|intros buf].
  apply quiet_bind; [intros []; simpl; auto|intros _].
  destruct buf as [|v buf]; [simpl; auto|]. cbv beta iota.
  apply quiet_bind; [destruct (decode_all _); simpl; auto|intros ms].
  apply quiet_bind; [destruct (sort_messages _ _); simpl; auto|intros sorted].
  simpl. split; [repeat split|].
  unfold py_last. destruct (rev sorted); simpl; auto.
Qed.

Lemma run_catch_reraise {A} env h (p : prog A) (f : string -> string) :
  fst (run env h (catch p (fun e => Raise (f e)))) = fst (run env h p).
Proof.
  rewrite run_catch. destruct (run env h p) as [h' [a|e]]; reflexivity.
Qed.

Lemma send_message_history env webhook H :
  H = fst (run env [] (send_message parse_timestamp webhook)) ->
  Forall harmless H \/
  (exists e1 e3 fs1, fs1 <> "esperar" /\ Forall harmless e1 /\ Forall harmless e3 /\
     H = e3 ++ EvPrint (LogStatus fs1) :: e1) \/
  (exists e1 e2 e3 fs2, Forall harmless e1 /\ Forall harmless e2 /\ Forall harmless e3 /\
     H = e3 ++ EvPrint (LogStatusAfterWait fs2) :: e2 ++
           EvSleep 3 :: EvPrint (LogStatus "esperar") :: e1).
Proof.
  intros ->. unfold send_message. rewrite run_catch_reraise. cbv zeta.
  set (m := map_webhook_to_message webhook).
  rewrite run_bind. unfold lpush. cbn [run].
  destruct (e_ok env []) eqn:Eok; cbn [run].
  2:{ left. repeat constructor. }
  rewrite run_bind.
  destruct (check_message_flow_total env [EvLPush (chat_key (chat_id m)) (VMsg m) true] (chat_id m) m)
    as (e1 & fs1 & -> & Hfs1 & He1).
  cbn [run].
  rewrite run_bind.
  destruct (String.eqb_spec fs1 "esperar") as [->|Hne].
  - cbn [run]. rewrite run_bind.
    match goal with |- context [run env ?h (check_message_flow _ _ _)] =>
      destruct (check_message_flow_total env h (chat_id m) m)
        as (e2 & fs2 & -> & _ & He2) end.
    cbn [run]. right; right.
    exists (e1 ++ [EvLPush (chat_key (chat_id m)) (VMsg m) true]), e2.
    destruct (fs2 =? "prosseguir")%string.
    + rewrite run_bind.
      match goal with |- context [run env ?h (process_buffer_messages _ _)] =>
        destruct (quiet_run env _ h (process_buffer_messages_quiet (chat_id m)))
          as (e3 & o & -> & He3) end.
      exists e3, fs2. split; [apply Forall_app; split; [exact He1 | repeat constructor]|].
      split; [exact He2|]. split; [exact He3|].
      destruct o; reflexivity.
    + exists [], fs2. split; [apply Forall_app; split; [exact He1 | repeat constructor]|].
      split; [exact He2|]. split; [constructor|]. reflexivity.
  - cbn [run]. right; left.
    exists (e1 ++ [EvLPush (chat_key (chat_id m)) (VMsg m) true]).
    destruct (fs1 =? "prosseguir")%string.
    + rewrite run_bind.
      match goal with |- context [run env ?h (process_buffer_messages _ _)] =>
        destruct (quiet_run env _ h (process_buffer_messages_quiet (chat_id m)))
          as (e3 & o & -> & He3) end.
      exists e3, fs1. split; [exact Hne|].
      split; [apply Forall_app; split; [exact He1 | repeat constructor]|].
      split; [exact He3|]. destruct o; reflexivity.
    + exists [], fs1. split; [exact Hne|].
      split; [apply Forall_app; split; [exact He1 | repeat constructor]|].
      split; [constructor|]. reflexivity.
Qed.

Lemma harmless_filters l :
  Forall harmless l ->
  filter is_sleep l = [] /\ filter is_status l = [] /\
  filter is_status_after_wait l = [].
Proof.
  induction 1 as [|x l [H1 [H2 H3]] _ IH]; simpl; [auto|].
  rewrite H1, H2, H3. exact IH.
Qed.

Lemma harmless_in l ev :
  Forall harmless l -> In ev l -> harmless ev.
Proof.
  intros Hl Hin. rewrite Forall_forall in Hl. auto.
Qed.

Ltac split_in :=
  repeat match goal with
  | H : In _ (_ ++ _) |- _ => apply in_app_or in H; destruct H as [H|H]
  | H : In _ (_ :: _) |- _ => destruct H as [H|H]
  | Hf : Forall harmless ?l, H : In _ ?l |- _ =>
      destruct (harmless_in _ _ Hf H) as (? & ? & ?); clear H
  end.

(** C8.  Under every environment (any store contents, faults, clock and
    concurrent requests), one [POST /message] request sleeps at most once,
    only for the 3-second window and only after its first arbitration
    printed WAIT ("esperar"); it prints at most one first status and at
    most one status after the wait, the latter only after the sleep: the
    re-arbitration never leads to a second wait. *)
Theorem send_message_single_wait env webhook :
  let tr := trace env (send_message parse_timestamp webhook) in
  (length (filter is_sleep tr) <= 1)%nat /\
  (forall s, In (EvSleep s) tr -> s = 3) /\
  (length (filter is_status tr) <= 1)%nat /\
  (length (filter is_status_after_wait tr) <= 1)%nat /\
  (forall s, In (EvSleep s) tr -> In (EvPrint (LogStatus "esperar")) tr) /\
  (forall fs, In (EvPrint (LogStatusAfterWait fs)) tr -> In (EvSleep 3) tr).
Proof.
  intros tr. unfold tr, trace. clear tr.
  rewrite !filter_rev, !length_rev.
  destruct (send_message_history env webhook _ eq_refl)
    as [Hh | [(e1 & e3 & fs1 & Hne & He1 & He3 & E)
             | (e1 & e2 & e3 & fs2 & He1 & He2 & He3 & E)]];
    [ | rewrite E | rewrite E].
  - destruct (harmless_filters _ Hh) as (-> & -> & ->).
    repeat split; simpl; try lia;
      intros ? Hin; apply (proj2 (in_rev _ _)) in Hin; split_in; discriminate.
  - destruct (harmless_filters _ He1) as (F1 & F2 & F3).
    destruct (harmless_filters _ He3) as (G1 & G2 & G3).
    rewrite !filter_app; simpl. rewrite F1, F2, F3, G1, G2, G3. simpl.
    repeat split; try lia;
      intros ? Hin; apply (proj2 (in_rev _ _)) in Hin; split_in; discriminate.
  - destruct (harmless_filters _ He1) as (F1 & F2 & F3).
    destruct (harmless_filters _ He2) as (H1 & H2 & H3).
    destruct (harmless_filters _ He3) as (G1 & G2 & G3).
    rewrite !filter_app; simpl. rewrite !filter_app; simpl.
    rewrite F1, F2, F3, H1, H2, H3, G1, G2, G3. simpl.
    repeat split; try lia.
    + intros ? Hin; apply (proj2 (in_rev _ _)) in Hin; split_in; try discriminate.
      injection Hin; auto.
    + intros s _. apply (proj1 (in_rev _ _)), in_or_app. right. right.
      apply in_or_app. right. right. left. reflexivity.
    + intros fs _. apply (proj1 (in_rev _ _)), in_or_app. right. right.
      apply in_or_app. right. left. reflexivity.
Qed.

End Proofs.

(* ------------------------------------------------------------------ *)
(** ** Concrete instances of the theorems *)

(** C1 refuted.  M1 (oldest) and M2 (newest) are both buffered, M1's id
    differs from M2's; the arbiter call for M2 decides WAIT at t = 12 s and
    PROCEED at t = 15 s, never SUPERSEDED, and at t = 15 s the call for M1
    also decides PROCEED: both racing requests go on to consolidate. *)
Lemma leadership_counterexample :
  message_id msg1 <> message_id msg2 /\
  decision_of (decide example_parse_timestamp (chat_id msg2) msg2
                 (Some [VMsg msg2; VMsg msg1]) 12000000) = Some WAIT /\
  decision_of (decide example_parse_timestamp (chat_id msg2) msg2
                 (Some [VMsg msg2; VMsg msg1]) 15000000) = Some PROCEED /\
  decision_of (decide example_parse_timestamp (chat_id msg1) msg1
                 (Some [VMsg msg2; VMsg msg1]) 15000000) = Some PROCEED.
Proof.
  split; [discriminate|]. vm_compute. auto.
Qed.

Lemma check_message_flow_timing_witness :
  decode_all [VMsg msg2; VMsg msg1] = Some [msg2; msg1] /\
  example_parse_timestamp (timestamp msg2) = Some 11000000 /\
  decide example_parse_timestamp (chat_id msg2) msg2
    (Some [VMsg msg2; VMsg msg1]) 12000000 = Done "esperar".
Proof.
  split; [reflexivity|]. split; [reflexivity|].
  exact (proj2 (check_message_flow_timing example_parse_timestamp
                  (chat_id msg2) msg2 [VMsg msg2; VMsg msg1] 12000000)
           msg2 [msg1] 11000000 eq_refl eq_refl).
Defined.

Lemma check_message_flow_fail_open_witness :
  decide example_parse_timestamp (chat_id msg1) msg1
    (Some [VJunk "{"; VMsg msg1]) 12000000 = Done "prosseguir" /\
  decide example_parse_timestamp (chat_id msg1) msg1
    (Some [VMsg (text_message "M3" "ontem" "oi")]) 12000000 = Done "prosseguir".
Proof.
  destruct (check_message_flow_fail_open example_parse_timestamp
              (chat_id msg1) msg1 12000000) as (_ & Hjunk & Hts & _).
  split.
  - apply Hjunk; [discriminate | reflexivity].
  - apply (Hts _ (text_message "M3" "ontem" "oi") []); reflexivity.
Defined.

Lemma process_buffer_messages_order_witness :
  exists h',
    run (fixed_env (Some [VMsg msgB; VMsg msgA; VMsg msgC]) 0) []
        (process_buffer_messages example_parse_timestamp (chat_id msgA)) =
      (h', Done msgB) /\
    In (EvEntry {| entry_type := "human";
                   entry_content := replace_char quote backtick
                                      (format_content [msgC; msgA; msgB]) |}) h'.
Proof.
  destruct (process_buffer_messages_order example_parse_timestamp (chat_id msgA)
              [VMsg msgB; VMsg msgA; VMsg msgC] [msgB; msgA; msgC] 0 []
              ltac:(discriminate) eq_refl
              ltac:(intros m Hm; simpl in Hm;
                    repeat destruct Hm as [<-|Hm]; try contradiction;
                    eexists; reflexivity))
    as (ks & sorted & rep & h' & _ & _ & _ & _ & Hrun & Hin & _ & _ & _
        & (pre & t & Hpre & _) & Hord).
  specialize (Hord msgA msgB msgC 12000000 13000000 9000000
                ltac:(apply perm_swap) eq_refl eq_refl eq_refl
                ltac:(lia) ltac:(lia)).
  assert (Hrep : rep = msgB).
  { rewrite Hpre, map_app in Hord. simpl in Hord.
    change [msgC; msgA; msgB] with ([msgC; msgA] ++ [msgB])%list in Hord.
    apply app_inj_tail in Hord. destruct Hord as [_ Hr]. exact Hr. }
  rewrite Hord in Hin. subst rep. exists h'. split; [exact Hrun | exact Hin].
Defined.

Lemma consolidation_round_trip_witness :
  exists frags rep h',
    run (fixed_env (Some (map VMsg [msgA; msgC])) 0) []
        (process_buffer_messages example_parse_timestamp (chat_id msgA)) =
      (h', Done rep) /\
    In (EvEntry {| entry_type := "human";
                   entry_content := String.concat newline frags |}) h' /\
    length frags = 2%nat.
Proof.
  destruct (consolidation_round_trip example_parse_timestamp (chat_id msgA)
              [msgA; msgC] 0 [] ltac:(discriminate)
              ltac:(intros m Hm; simpl in Hm;
                    repeat destruct Hm as [<-|Hm]; try contradiction;
                    eexists; reflexivity)
              ltac:(intros m Hm; simpl in Hm;
                    repeat destruct Hm as [<-|Hm]; try contradiction;
                    eexists; reflexivity))
    as (_ & sorted & frags & rep & h' & _ & Hrun & Hin & Hlen & _).
  exists frags, rep, h'. auto.
Defined.

(** C5 (code defect).  [process_buffer_messages] reads the buffer with
    LRANGE and clears it with a separate DEL.  In [race_result] the push of
    a new message for the same chat lands between the two: the drain's read
    holds only M1, the DEL then removes the new message, and it is neither
    in the drained read nor in the store afterwards. *)
Theorem drain_loses_racing_push :
  exists drain_tr push_tr before,
    map snd (snd race_result) = [drain_tr; push_tr] /\
    In (EvLPush (chat_key (chat_id msg1)) (VMsg racing_message) true) push_tr /\
    range_reads drain_tr = [before] /\
    ~ In (VMsg racing_message) before /\
    In (EvDel (chat_key (chat_id msg1)) true) drain_tr /\
    ~ In (VMsg racing_message) (w_store (fst race_result) (chat_key (chat_id msg1))).
Proof.
  vm_compute.
  do 3 eexists. split; [reflexivity|].
  split; [left; reflexivity|]. split; [reflexivity|].
  split; [intros [H|[]]; discriminate|].
  split; [right; left; reflexivity|].
  intros [].
Qed.

Lemma get_messages_limit_witness :
  snd (run (store_env (w_store world_with_msg1)) []
         (get_messages (chat_id msg1) 0)) = Done [msg1] /\
  snd (run (store_env (w_store world_with_msg1)) []
         (get_messages (chat_id msg1) 1)) = Done [msg1] /\
  snd (run (store_env (w_store world_with_msg1)) []
         (get_messages (chat_id msg1) (2 ^ 70))) =
    Failed (http_500 "Erro ao recuperar mensagens: " redis_error).
Proof.
  destruct (get_messages_limit (w_store world_with_msg1) (chat_id msg1) 0 []
              [msg1] eq_refl) as (_ & H0 & _).
  destruct (get_messages_limit (w_store world_with_msg1) (chat_id msg1) 1 []
              [msg1] eq_refl) as (H1 & _ & _).
  destruct (get_messages_limit (w_store world_with_msg1) (chat_id msg1) (2 ^ 70) []
              [msg1] eq_refl) as (_ & _ & H2).
  split; [apply H0; reflexivity|]. split.
  - apply H1. unfold int64_max. lia.
  - apply H2. unfold int64_max. lia.
Defined.

(** C10 refuted.  With M1 buffered, [GET /messages/{chat_id}?limit=2^70],
    a limit [L >= 1] that the endpoint accepts, does not return the [L]
    most recently pushed messages: the range end [2^70 - 1] is not a
    64-bit integer, Redis rejects it, and the endpoint fails with
    HTTP 500. *)
Lemma get_messages_limit_counterexample :
  1 <= 2 ^ 70 /\
  snd (run (store_env (w_store world_with_msg1)) []
         (get_messages (chat_id msg1) (2 ^ 70))) =
    Failed (http_500 "Erro ao recuperar mensagens: " redis_error).
Proof.
  split; [lia | vm_compute; reflexivity].
Qed.

(** C6 refuted.  An image message ([messageType = "imageMessage"], no
    [conversation]) is mapped to a Message whose content is the empty
    text, not an image descriptor. *)
Lemma webhook_image_counterexample :
  content_type (map_webhook_to_message
                  (sample_webhook "IMG1" "imageMessage" None "11")) = "imageMessage" /\
  content (map_webhook_to_message
             (sample_webhook "IMG1" "imageMessage" None "11")) = CText EmptyString.
Proof.
  split; reflexivity.
Qed.

(* ------------------------------------------------------------------ *)
(** ** Further properties of the handlers *)

Section Emits.
Local Open Scope list_scope.

Lemma emits_only_bind {A B} P (p : prog A) (f : A -> prog B) :
  emits_only P p -> (forall a, emits_only P (f a)) -> emits_only P (bind p f).
Proof.
  induction p; simpl; intros Hp Hf; try intros x; try specialize (Hp x);
    intuition.
Qed.

Lemma emits_only_catch {A} P (p : prog A) (k : string -> prog A) :
  emits_only P p -> (forall e, emits_only P (k e)) -> emits_only P (catch p k).
Proof.
  induction p; simpl; intros Hp Hk; try intros x; try specialize (Hp x);
    intuition.
Qed.

Lemma emits_only_impl {A} (P Q : trace_event -> Prop) (p : prog A) :
  (forall ev, P ev -> Q ev) -> emits_only P p -> emits_only Q p.
Proof.
  intros HPQ. induction p; simpl; intros Hp; try intros x; try specialize (Hp x);
    intuition.
Qed.

Lemma emits_only_run {A} P env (p : prog A) h :
  emits_only P p ->
  exists ext, fst (run env h p) = ext ++ h /\ Forall P ext.
Proof.
  revert h; induction p as [a|e|k v c IH|k a b c IH|k c IH|c IH|s c IH|l c IH|en c IH];
    intros h Hp; simpl in *.
  - exists []. auto.
  - exists []. auto.
  - destruct (Hp (e_ok env h)) as [Hev Hc].
    destruct (IH _ (EvLPush k v (e_ok env h) :: h) Hc) as (ext & -> & Hx).
    exists (ext ++ [EvLPush k v (e_ok env h)]). rewrite <- app_assoc.
    split; [reflexivity | apply Forall_app; auto].
  - destruct (Hp (e_range env h k a b)) as [Hev Hc].
    destruct (IH _ (EvLRange k a b (e_range env h k a b) :: h) Hc) as (ext & -> & Hx).
    exists (ext ++ [EvLRange k a b (e_range env h k a b)]). rewrite <- app_assoc.
    split; [reflexivity | apply Forall_app; auto].
  - destruct (Hp (e_ok env h)) as [Hev Hc].
    destruct (IH _ (EvDel k (e_ok env h) :: h) Hc) as (ext & -> & Hx).
    exists (ext ++ [EvDel k (e_ok env h)]). rewrite <- app_assoc.
    split; [reflexivity | apply Forall_app; auto].
  - destruct (Hp (e_now env h)) as [Hev Hc].
    destruct (IH _ (EvNow (e_now env h) :: h) Hc) as (ext & -> & Hx).
    exists (ext ++ [EvNow (e_now env h)]). rewrite <- app_assoc.
    split; [reflexivity | apply Forall_app; auto].
  - destruct Hp as [Hev Hc].
    destruct (IH (EvSleep s :: h) Hc) as (ext & -> & Hx).
    exists (ext ++ [EvSleep s]). rewrite <- app_assoc.
    split; [reflexivity | apply Forall_app; auto].
  - destruct Hp as [Hev Hc].
    destruct (IH (EvPrint l :: h) Hc) as (ext & -> & Hx).
    exists (ext ++ [EvPrint l]). rewrite <- app_assoc.
    split; [reflexivity | apply Forall_app; auto].
  - destruct Hp as [Hev Hc].
    destruct (IH (EvEntry en :: h) Hc) as (ext & -> & Hx).
    exists (ext ++ [EvEntry en]). rewrite <- app_assoc.
    split; [reflexivity | apply Forall_app; auto].
Qed.

End Emits.

(** [LRANGE key 0 (limit - 1)]: the first [limit] entries when
    [limit >= 1], otherwise all but the last [-limit] entries. *)
Lemma lrange_list_window {A} (l : list A) limit :
  lrange_list l 0 (limit - 1) =
  firstn (Z.to_nat (if 1 <=? limit then limit else Z.of_nat (length l) + limit)) l.
Proof.
  destruct (Z.leb_spec 1 limit) as [Hl|Hl].
  - apply lrange_list_prefix; lia.
  - unfold lrange_list. simpl. z_cases.
    all: first
      [ replace (Z.to_nat (Z.of_nat (length l) + limit)) with O by lia; reflexivity
      | destruct l; simpl in *; [destruct (Z.to_nat _); reflexivity | lia]
      | do 2 f_equal; lia ].
Qed.

(** [GET /messages/{chat_id}?limit=...] over a store [sigma], for every
    [limit].  When the range end [limit - 1] is a 64-bit integer: with
    [limit >= 1] it returns the first [limit] buffered messages (newest
    first); with [limit <= 0] it returns all but the [-limit] oldest ones
    (so [limit = -1] drops the oldest message and a [limit] at or below
    minus the buffer length returns nothing); only the entries in that
    window are decoded, and if one of them is not a valid message the
    endpoint fails with HTTP 500 ["Erro ao recuperar mensagens: ..."].
    Otherwise Redis rejects the index and the endpoint fails with the same
    HTTP 500. *)
Theorem get_messages_window sigma chat limit h :
  snd (run (store_env sigma) h (get_messages chat limit)) =
  if in_int64 (limit - 1) then
    match decode_all
            (firstn (Z.to_nat (if 1 <=? limit then limit
                               else Z.of_nat (length (sigma (chat_key chat))) + limit))
                    (sigma (chat_key chat))) with
    | Some ms => Done ms
    | None => Failed (http_500 "Erro ao recuperar mensagens: " "ValidationError")
    end
  else Failed (http_500 "Erro ao recuperar mensagens: " redis_error).
Proof.
  rewrite get_messages_store_run. unfold redis_lrange.
  replace (in_int64 0) with true by reflexivity. cbn [andb].
  destruct (in_int64 (limit - 1)); [|reflexivity].
  rewrite lrange_list_window. destruct (decode_all _); reflexivity.
Qed.

Section Extras.
Local Open Scope list_scope.

Variable parse_timestamp : string -> option Z.

Lemma check_message_flow_emits chat m :
  emits_only (fun ev => on_key (chat_key chat) ev /\ read_only ev)
    (check_message_flow parse_timestamp chat m).
Proof.
  unfold check_message_flow, lrange, now_utc, parse_ts, raise_none, py_first.
  simpl. repeat (intros; try case_match; simpl; repeat split).
Qed.

Lemma process_buffer_messages_emits chat :
  emits_only (fun ev => on_key (chat_key chat) ev /\ no_push ev)
    (process_buffer_messages parse_timestamp chat).
Proof.
  unfold process_buffer_messages, lrange, delete, raise_none, py_last.
  simpl. repeat (intros; try case_match; simpl; repeat split).
Qed.

Lemma get_messages_emits chat limit :
  emits_only (fun ev => on_key (chat_key chat) ev /\ read_only ev)
    (get_messages chat limit).
Proof.
  unfold get_messages, lrange, raise_none.
  simpl. repeat (intros; try case_match; simpl; repeat split).
Qed.

Lemma check_message_flow_run_read_only env h chat m :
  exists ext s,
    run env h (check_message_flow parse_timestamp chat m) = ((ext ++ h)%list, Done s) /\
    (s = "prosseguir" \/ s = "esperar") /\
    Forall (fun ev => on_key (chat_key chat) ev /\ read_only ev) ext.
Proof.
  destruct (check_message_flow_total parse_timestamp env h chat m) as (ext & s & Hrun & Hs & _).
  destruct (emits_only_run _ env _ h (check_message_flow_emits chat m))
    as (ext' & Hfst & Hx).
  rewrite Hrun in Hfst. simpl in Hfst. apply app_inv_tail in Hfst. subst ext'.
  eauto.
Qed.

Lemma send_message_cont_emits chat m fs1 :
  emits_only (fun ev => on_key (chat_key chat) ev /\ no_push ev)
   (Print (LogStatus fs1)
       (fs <- (if String.eqb fs1 "esperar"
               then Sleep 3 (fs2 <- check_message_flow parse_timestamp chat m ;;
                             Print (LogStatusAfterWait fs2) (Ret fs2))
               else Ret fs1) ;;
        if String.eqb fs "prosseguir"
        then (last <- process_buffer_messages parse_timestamp chat ;;
              Ret {| status := "success"; resp_data := m;
                     flow_status := fs; last_message := Some last |})
        else Ret {| status := "success"; resp_data := m;
                    flow_status := fs; last_message := None |})).
Proof.
  cbn [emits_only]. split; [split; exact I|].
  apply emits_only_bind.
  - destruct (String.eqb fs1 "esperar"); cbn [emits_only]; [|exact I].
    split; [split; exact I|].
    apply emits_only_bind.
    + eapply emits_only_impl; [|apply check_message_flow_emits].
      intros [] [? ?]; simpl in *; auto.
    + intros fs2. cbn [emits_only]. simpl. auto.
  - intros fs. destruct (String.eqb fs "prosseguir"); cbn [emits_only]; [|exact I].
    apply emits_only_bind; [apply process_buffer_messages_emits|].
    intros; exact I.
Qed.
Lemma send_message_after_push_emits chat m :
  emits_only (fun ev => on_key (chat_key chat) ev /\ no_push ev)
   (fs1 <- check_message_flow parse_timestamp chat m ;;
    Print (LogStatus fs1)
       (fs <- (if String.eqb fs1 "esperar"
               then Sleep 3 (fs2 <- check_message_flow parse_timestamp chat m ;;
                             Print (LogStatusAfterWait fs2) (Ret fs2))
               else Ret fs1) ;;
        if String.eqb fs "prosseguir"
        then (last <- process_buffer_messages parse_timestamp chat ;;
              Ret {| status := "success"; resp_data := m;
                     flow_status := fs; last_message := Some last |})
        else Ret {| status := "success"; resp_data := m;
                    flow_status := fs; last_message := None |})).
Proof.
  apply emits_only_bind; [|intros fs1; apply send_message_cont_emits].
  eapply emits_only_impl; [|apply check_message_flow_emits].
  intros [] [? ?]; simpl in *; auto.
Qed.

(** Every store command of one [POST /message] request is on the key of
    its own chat: it first pushes its message there (exactly once), and the
    rest of the request (the arbitrations and the consolidation) only reads
    and deletes that key, whatever the store answers. *)
Theorem send_message_stays_on_chat env webhook :
  let m := map_webhook_to_message webhook in
  exists ok rest,
    trace env (send_message parse_timestamp webhook) =
      EvLPush (chat_key (chat_id m)) (VMsg m) ok :: rest /\
    Forall (fun ev => on_key (chat_key (chat_id m)) ev /\ no_push ev) rest.
Proof.
  intros m. unfold trace, send_message. rewrite run_catch_reraise. cbv zeta.
  fold m. rewrite run_bind. unfold lpush. cbn [run].
  destruct (e_ok env []); cbn [run].
  - destruct (emits_only_run _ env _ [EvLPush (chat_key (chat_id m)) (VMsg m) true]
                (send_message_after_push_emits (chat_id m) m)) as (ext & -> & Hx).
    exists true, (rev ext). rewrite rev_app_distr. split; [reflexivity|].
    apply Forall_rev, Hx.
  - exists false, []. split; [reflexivity | constructor].
Qed.

Lemma no_del_not_in l k ok : Forall no_del l -> ~ In (EvDel k ok) l.
Proof.
  rewrite Forall_forall. intros Hl Hin. exact (Hl _ Hin).
Qed.

Lemma read_only_no_del (Q : trace_event -> Prop) l :
  Forall (fun ev => Q ev /\ read_only ev) l -> Forall no_del l.
Proof.
  apply Forall_impl. intros [] [_ H]; simpl in *; auto.
Qed.

(** The response of one [POST /message] request.  When it returns, its
    [status] is ["success"], its [data] is the request's own message, and
    either the final flow status is ["prosseguir"] and [last_message] is
    set, or it is ["esperar"], [last_message] is absent and the request
    issued no DEL: its message is left in the buffer.  When it fails, the
    error is an HTTP 500 with detail ["Erro ao processar mensagem: ..."]. *)
Theorem send_message_response env webhook :
  let m := map_webhook_to_message webhook in
  match run env [] (send_message parse_timestamp webhook) with
  | (h, Done r) =>
      status r = "success" /\ resp_data r = m /\
      ((flow_status r = "prosseguir" /\ exists last, last_message r = Some last) \/
       (flow_status r = "esperar" /\ last_message r = None /\
        forall k ok, ~ In (EvDel k ok) h))
  | (_, Failed e) => exists d, e = http_500 "Erro ao processar mensagem: " d
  end.
Proof.
  intros m. unfold send_message. rewrite run_catch. cbv zeta.
  fold m. rewrite run_bind. unfold lpush. cbn [run].
  destruct (e_ok env []); cbn [run].
  2:{ eexists; reflexivity. }
  rewrite run_bind.
  destruct (check_message_flow_run_read_only env
              [EvLPush (chat_key (chat_id m)) (VMsg m) true] (chat_id m) m)
    as (e1 & fs1 & -> & Hfs1 & He1).
  cbn [run]. rewrite run_bind.
  destruct (fs1 =? "esperar")%string eqn:Ew.
  - cbn [run]. rewrite run_bind.
    match goal with |- context [run env ?h (check_message_flow _ _ _)] =>
      destruct (check_message_flow_run_read_only env h (chat_id m) m)
        as (e2 & fs2 & -> & Hfs2 & He2) end.
    cbn [run].
    destruct (fs2 =? "prosseguir")%string eqn:Ep.
    + rewrite run_bind.
      match goal with |- context [run env ?h (process_buffer_messages _ _)] =>
        destruct (run env h (process_buffer_messages parse_timestamp (chat_id m)))
          as [h3 [last|e]] end; cbn [run].
      * split; [reflexivity|]. split; [reflexivity|].
        left. split; [apply String.eqb_eq, Ep | exists last; reflexivity].
      * eexists; reflexivity.
    + split; [reflexivity|]. split; [reflexivity|]. right.
      split; [destruct Hfs2 as [->| ->]; [discriminate | reflexivity]|].
      split; [reflexivity|].
      intros k ok. apply no_del_not_in.
      repeat first [ apply Forall_app; split | constructor
                   | eapply read_only_no_del; eassumption | exact I ].
  - cbn [run bind].
    destruct (fs1 =? "prosseguir")%string eqn:Ep.
    + rewrite run_bind.
      match goal with |- context [run env ?h (process_buffer_messages _ _)] =>
        destruct (run env h (process_buffer_messages parse_timestamp (chat_id m)))
          as [h3 [last|e]] end; cbn [run].
      * split; [reflexivity|]. split; [reflexivity|].
        left. split; [apply String.eqb_eq, Ep | exists last; reflexivity].
      * eexists; reflexivity.
    + exfalso. destruct Hfs1 as [->| ->]; discriminate.
Qed.

(** The consolidation deletes the buffer before it parses it.  When the
    drained buffer is empty, or one of its entries is not a valid message,
    or one of the timestamps does not parse, the request has still issued
    the DEL; it prints the error, saves nothing and re-raises: the
    buffered messages are lost. *)
Theorem process_buffer_messages_discards_on_error chat buf now h e :
  (buf = [] /\ e = "ValueError: Buffer vazio") \/
  (buf <> [] /\ decode_all buf = None /\ e = "ValidationError") \/
  (exists ms, buf <> [] /\ decode_all buf = Some ms /\
              sort_messages parse_timestamp ms = None /\ e = "dateutil.parser.ParserError") ->
  run (fixed_env (Some buf) now) h (process_buffer_messages parse_timestamp chat) =
    (EvPrint (LogBufferError e) :: EvDel (chat_key chat) true
       :: EvLRange (chat_key chat) 0 (-1) (Some buf) :: h, Failed e).
Proof.
  intros [[-> ->] | [[Hne [Hdec ->]] | (ms & Hne & Hdec & Hsort & ->)]].
  - reflexivity.
  - destruct buf as [|v buf']; [congruence|].
    unfold process_buffer_messages, lrange, delete, raise_none.
    cbn -[decode_all]. rewrite Hdec. reflexivity.
  - destruct buf as [|v buf']; [congruence|].
    unfold process_buffer_messages, lrange, delete, raise_none.
    cbn -[decode_all sort_messages]. rewrite Hdec.
    cbn -[sort_messages]. rewrite Hsort. reflexivity.
Qed.

(** A consolidation that no other request interleaves with, on the shared
    store: its LRANGE reads the chat's whole buffer, and after its DEL
    that buffer is empty while every other key keeps its contents. *)
Theorem drain_alone_empties w chat :
  let '(w', ths) :=
    run_schedule w [spawn (process_buffer_messages parse_timestamp chat)] [0; 0]%nat in
  (forall k, w_store w' k =
             if String.eqb k (chat_key chat) then [] else w_store w k) /\
  exists p tr, ths = [(p, tr)] /\ range_reads tr = [w_store w (chat_key chat)].
Proof.
  unfold spawn, process_buffer_messages, lrange, delete. cbn.
  rewrite lrange_list_all.
  split; [reflexivity | eexists _, _; split; reflexivity].
Qed.

(** A consolidation and a new request of the same chat on the shared
    store, when the new request's LPUSH runs before the consolidation's
    LRANGE: the consolidation reads the new message together with the
    buffer, and its DEL then leaves the chat's buffer empty. *)
Theorem push_before_drain_is_read w webhook :
  let m := map_webhook_to_message webhook in
  let '(w', ths) :=
    run_schedule w
      [spawn (process_buffer_messages parse_timestamp (chat_id m));
       spawn (send_message parse_timestamp webhook)] [1; 0; 0]%nat in
  (w_store w' (chat_key (chat_id m)) = []) /\
  exists p tr, nth_error ths 0 = Some (p, tr) /\
    range_reads tr = [VMsg m :: w_store w (chat_key (chat_id m))].
Proof.
  intros m.
  unfold spawn, process_buffer_messages, send_message, lrange, delete, lpush.
  cbn. fold m.
  rewrite !String.eqb_refl, lrange_list_all.
  split; [reflexivity | eexists _, _; split; reflexivity].
Qed.

(** The same two requests when the LPUSH runs after the consolidation's
    DEL: the consolidation reads the old buffer only, and the new message
    stays alone in the chat's buffer. *)
Theorem push_after_drain_survives w webhook :
  let m := map_webhook_to_message webhook in
  let '(w', ths) :=
    run_schedule w
      [spawn (process_buffer_messages parse_timestamp (chat_id m));
       spawn (send_message parse_timestamp webhook)] [0; 0; 1]%nat in
  (w_store w' (chat_key (chat_id m)) = [VMsg m]) /\
  exists p tr, nth_error ths 0 = Some (p, tr) /\
    range_reads tr = [w_store w (chat_key (chat_id m))].
Proof.
  intros m.
  unfold spawn, process_buffer_messages, send_message, lrange, delete, lpush.
  cbn. fold m.
  rewrite !String.eqb_refl, lrange_list_all.
  split; [reflexivity | eexists _, _; split; reflexivity].
Qed.

(** The same two requests when the LPUSH runs between the consolidation's
    LRANGE and its DEL: the consolidation reads the old buffer only, and
    its DEL leaves the chat's buffer empty, so the new message is neither
    consolidated nor buffered. *)
Theorem push_between_range_and_del_lost w webhook :
  let m := map_webhook_to_message webhook in
  let '(w', ths) :=
    run_schedule w
      [spawn (process_buffer_messages parse_timestamp (chat_id m));
       spawn (send_message parse_timestamp webhook)] [0; 1; 0]%nat in
  (w_store w' (chat_key (chat_id m)) = []) /\
  exists p tr, nth_error ths 0 = Some (p, tr) /\
    range_reads tr = [w_store w (chat_key (chat_id m))].
Proof.
  intros m.
  unfold spawn, process_buffer_messages, send_message, lrange, delete, lpush.
  cbn. fold m.
  rewrite !String.eqb_refl, lrange_list_all.
  split; [reflexivity | eexists _, _; split; reflexivity].
Qed.

(** [s.replace(a, b)] changes each occurrence of [a] into [b] and keeps
    every other character in place. *)
Lemma replace_char_get a b s n :
  String.get n (replace_char a b s) =
  option_map (fun c => if Ascii.eqb c a then b else c) (String.get n s).
Proof.
  revert n; induction s as [|c s IH]; intros [|n]; simpl; auto.
Qed.

Lemma replace_char_no_quote s n :
  String.get n (replace_char quote backtick s) <> Some quote.
Proof.
  rewrite replace_char_get. destruct (String.get n s) as [c|]; simpl; [|discriminate].
  destruct (Ascii.eqb_spec c quote) as [->|Hc].
  - intros H. injection H. vm_compute. discriminate.
  - intros H. injection H as ->. exact (Hc eq_refl).
Qed.

Lemma check_message_flow_emits_unquoted chat m :
  emits_only entry_unquoted (check_message_flow parse_timestamp chat m).
Proof.
  unfold check_message_flow, lrange, now_utc, parse_ts, raise_none, py_first.
  simpl. repeat (intros; try case_match; simpl; repeat split).
Qed.

Lemma process_buffer_messages_emits_unquoted chat :
  emits_only entry_unquoted (process_buffer_messages parse_timestamp chat).
Proof.
  unfold process_buffer_messages, lrange, delete, raise_none, py_last.
  cbn -[replace_char format_content].
  repeat (intros; try case_match; cbn -[replace_char format_content]; repeat split).
  all: apply replace_char_no_quote.
Qed.

(** Whatever the store holds and answers, no db entry printed during a
    [POST /message] request contains a double quote: the consolidation
    replaces every one of them by a backtick. *)
Theorem send_message_entries_unquoted env webhook :
  Forall entry_unquoted (trace env (send_message parse_timestamp webhook)).
Proof.
  assert (H : emits_only entry_unquoted (send_message parse_timestamp webhook)).
  { unfold send_message. apply emits_only_catch; [|intros; exact I]. cbv zeta.
    apply emits_only_bind; [intros ok; split; [exact I | destruct ok; exact I]|].
    intros _. apply emits_only_bind; [apply check_message_flow_emits_unquoted|].
    intros fs1. split; [exact I|]. apply emits_only_bind.
    - destruct (fs1 =? "esperar")%string; [|exact I].
      split; [exact I|]. apply emits_only_bind;
        [apply check_message_flow_emits_unquoted | intros; split; exact I].
    - intros fs. destruct (fs =? "prosseguir")%string; [|exact I].
      apply emits_only_bind;
        [apply process_buffer_messages_emits_unquoted | intros; exact I]. }
  destruct (emits_only_run _ env _ [] H) as (ext & Hfst & Hx).
  unfold trace. rewrite Hfst, app_nil_r. apply Forall_rev, Hx.
Qed.

(** The arbiter [check_message_flow] and [GET /messages/{chat_id}] never
    write to the store: whatever the store answers, every command they
    issue is a read (LRANGE) of their own chat's key. *)
Theorem read_endpoints_read_only env h chat m limit :
  (exists ext, fst (run env h (check_message_flow parse_timestamp chat m)) = ext ++ h /\
     Forall (fun ev => on_key (chat_key chat) ev /\ read_only ev) ext) /\
  (exists ext, fst (run env h (get_messages chat limit)) = ext ++ h /\
     Forall (fun ev => on_key (chat_key chat) ev /\ read_only ev) ext).
Proof.
  split; apply emits_only_run;
    [apply check_message_flow_emits | apply get_messages_emits].
Qed.

End Extras.

Lemma process_buffer_messages_discards_on_error_witness :
  ([VJunk "{}"] <> [] /\ decode_all [VJunk "{}"] = None) /\
  run (fixed_env (Some [VJunk "{}"]) 12000000) []
      (process_buffer_messages example_parse_timestamp (chat_id msg1)) =
    ([EvPrint (LogBufferError "ValidationError");
      EvDel (chat_key (chat_id msg1)) true;
      EvLRange (chat_key (chat_id msg1)) 0 (-1) (Some [VJunk "{}"])],
     Failed "ValidationError").
Proof.
  split; [split; [discriminate | reflexivity]|].
  apply (process_buffer_messages_discards_on_error example_parse_timestamp).
  right; left. split; [discriminate | split; reflexivity].
Defined.
